(** * Storyscript [compiler/objects.py]: the tree-to-IR lowering of values

    A shallow embedding of the class [Objects] (paths, templated strings,
    literals, arguments, mutations and expressions) together with the
    properties its specification states about it.

    Python objects are modelled by explicit data: a concrete syntax tree is a
    [node], the compiled objects are [value]s (dictionaries are association
    lists in insertion order), and a raised exception is the [Raise] branch
    of the result type [res].  Text is a list of characters. *)

From Stdlib Require Import List String Ascii ZArith Bool Lia Arith.
Import ListNotations.

Set Warnings "-register-all".
Local Open Scope string_scope.
Local Open Scope list_scope.

(** ** Text *)

Definition text := list ascii.

(** A literal of the source, as text. *)
Definition txt (s : string) : text := list_ascii_of_string s.

Definition text_eqb (a b : text) : bool :=
  if list_eq_dec ascii_dec a b then true else false.

Definition open_brace : ascii := "{"%char.
Definition close_brace : ascii := "}"%char.

(** ** Exceptions and results *)

Inductive exn : Type :=
| AttributeError
| TypeError
| ValueError
| UnboundLocalError.

Inductive res (A : Type) : Type :=
| Ok (a : A)
| Raise (e : exn).
Arguments Ok {A} a.
Arguments Raise {A} e.

Definition bind {A B : Type} (r : res A) (k : A -> res B) : res B :=
  match r with
  | Ok a => k a
  | Raise e => Raise e
  end.

Notation "x <- r ;; k" := (bind r (fun x => k))
  (at level 61, r at next level, right associativity).

(** ** The concrete syntax tree *)

(** A child of a tree is a lark [Token] (a [type] and the raw [value]) or
    a nested [Tree] (its [data], the kind of the production, and its
    [children]). *)
Inductive node : Type :=
| Token (type : string) (value : text)
| Tree (data : string) (children : list node).

(** ** Compiled values *)

(** What the compile methods return: [None], booleans, integers, strings,
    lists and dictionaries keyed by field name.  [VNode] is a syntax tree
    that reaches the output unchanged, which happens when [.value] is read
    from a tree instead of a token. *)
Inductive value : Type :=
| VNone
| VBool (b : bool)
| VInt (z : Z)
| VStr (s : text)
| VList (items : list value)
| VDict (fields : list (string * value))
| VNode (n : node).

(** Lookup of a field in a dictionary. *)
Fixpoint assoc (k : string) (fields : list (string * value)) : option value :=
  match fields with
  | [] => None
  | (k', v) :: rest => if String.eqb k k' then Some v else assoc k rest
  end.

Definition field (k : string) (v : value) : option value :=
  match v with
  | VDict fields => assoc k fields
  | _ => None
  end.

(** The reserved discriminator of a compiled object. *)
Definition discriminator (v : value) : option value := field "$OBJECT" v.

(** ** The accessors of [Tree] *)

(** Modelled from the spec: the class [Tree] of [storyscript/parser] is not
    part of the sources at hand.  A node "holds an ordered sequence of
    children" and "exposes named optional slots": [child i] is the child at
    position [i], or [None] when there is none (the code tests
    [tree.child(1) is None]); reading it from something that is not a tree
    raises [AttributeError]. *)
Definition child (i : nat) (o : option node) : res (option node) :=
  match o with
  | Some (Tree _ cs) => Ok (nth_error cs i)
  | _ => Raise AttributeError
  end.

(** Modelled from the spec: the named-slot accessor of [Tree].  Any attribute
    of a tree other than [data] and [children] is a slot: the first child
    that is a tree of that kind, or [None]. *)
Fixpoint walk (name : string) (cs : list node) : option node :=
  match cs with
  | [] => None
  | Tree d l :: rest => if String.eqb d name then Some (Tree d l) else walk name rest
  | Token _ _ :: rest => walk name rest
  end.

Definition slot (name : string) (o : option node) : res (option node) :=
  match o with
  | Some (Tree _ cs) => Ok (walk name cs)
  | _ => Raise AttributeError
  end.

(** What reading [x.value] gives: the text of a token, or, on a tree, the
    slot named [value] (a tree or [None]). *)
Inductive attr : Type :=
| AStr (s : text)
| AObj (o : option node).

Definition attr_value (o : option node) : res attr :=
  match o with
  | None => Raise AttributeError
  | Some (Token _ v) => Ok (AStr v)
  | Some (Tree _ cs) => Ok (AObj (walk "value" cs))
  end.

(** The attribute as it is stored in a compiled object. *)
Definition to_value (a : attr) : value :=
  match a with
  | AStr s => VStr s
  | AObj None => VNone
  | AObj (Some n) => VNode n
  end.

(** [x.data]: the kind of a tree; a token has none. *)
Definition attr_data (o : option node) : res string :=
  match o with
  | Some (Tree d _) => Ok d
  | _ => Raise AttributeError
  end.

(** A method called on [None] fails on its first attribute access. *)
Definition on {A : Type} (f : node -> res A) (o : option node) : res A :=
  match o with
  | Some n => f n
  | None => Raise AttributeError
  end.

(** [s[1:-1]] on a string; a tree or [None] is not subscriptable. *)
Definition slice_1_m1 (s : text) : text := removelast (tl s).

Definition strip_quotes (a : attr) : res text :=
  match a with
  | AStr s => Ok (slice_1_m1 s)
  | AObj _ => Raise TypeError
  end.

(** ** Library functions on text *)

(** [starts_with p s]: [s.startswith(p)]. *)
Fixpoint starts_with (p s : text) : bool :=
  match p, s with
  | [], _ => true
  | _ :: _, [] => false
  | a :: p', b :: s' => Ascii.eqb a b && starts_with p' s'
  end.

(** [s.replace(old, new)] for a non-empty [old]: the occurrences of [old]
    are replaced from left to right, without overlap.  [skip] counts the
    characters of an occurrence that are still to be passed over. *)
Fixpoint replace_from (old new : text) (skip : nat) (s : text) : text :=
  match s with
  | [] => []
  | c :: s' =>
      match skip with
      | S k => replace_from old new k s'
      | O =>
          if starts_with old s
          then new ++ replace_from old new (List.length old - 1) s'
          else c :: replace_from old new 0 s'
      end
  end.

(** With an empty [old], Python puts [new] before every character and at
    the end. *)
Definition py_replace (old new s : text) : text :=
  match old with
  | [] => new ++ flat_map (fun c => c :: new) s
  | _ :: _ => replace_from old new 0 s
  end.

(** The greedy group: the longest prefix without a closing brace, and
    what follows it. *)
Fixpoint span_inner (s : text) : text * text :=
  match s with
  | [] => ([], [])
  | c :: s' =>
      if Ascii.eqb c close_brace then ([], s)
      else let (m, r) := span_inner s' in (c :: m, r)
  end.

(** The pattern of [Objects.string] (an opening brace, a group of any
    number of characters other than the closing brace, a closing brace)
    anchored at the start of [s]: the captured group.  The group is greedy and the next character must be the closing
    brace; a shorter group would be followed by one of its own characters,
    none of which is a closing brace, so backtracking finds nothing more. *)
Definition match_here (s : text) : option text :=
  match s with
  | [] => None
  | c :: s' =>
      if Ascii.eqb c open_brace then
        match span_inner s' with
        | (m, d :: _) => Some m
        | (_, []) => None
        end
      else None
  end.

(** [re.findall] with that pattern: the groups of the matches found from
    left to right, each search resuming after the previous match. *)
Fixpoint findall_from (skip : nat) (s : text) : list text :=
  match s with
  | [] => []
  | _ :: s' =>
      match skip with
      | S k => findall_from k s'
      | O =>
          match match_here s with
          | Some m => m :: findall_from (S (List.length m)) s'
          | None => findall_from 0 s'
          end
      end
  end.

Definition findall (s : text) : list text := findall_from 0 s.

(** [int(s)] on a string, Python 3.6 and later, for text in ASCII:
    surrounding whitespace is dropped, one sign is allowed, and the digits
    may be grouped by single underscores. *)
Definition is_space (c : ascii) : bool :=
  let n := nat_of_ascii c in
  ((9 <=? n) && (n <=? 13) || (28 <=? n) && (n <=? 32))%nat.

Definition digit_of (c : ascii) : option Z :=
  let n := nat_of_ascii c in
  if ((48 <=? n) && (n <=? 57))%nat then Some (Z.of_nat (n - 48)) else None.

Fixpoint lstrip (s : text) : text :=
  match s with
  | [] => []
  | c :: s' => if is_space c then lstrip s' else s
  end.

Definition strip (s : text) : text := rev (lstrip (rev (lstrip s))).

Fixpoint digits (acc : Z) (after_digit : bool) (s : text) : option Z :=
  match s with
  | [] => if after_digit then Some acc else None
  | c :: s' =>
      match digit_of c with
      | Some d => digits (10 * acc + d) true s'
      | None =>
          if Ascii.eqb c "_"%char && after_digit
          then digits acc false s'
          else None
      end
  end.

Definition py_int (s : text) : option Z :=
  match strip s with
  | c :: r =>
      if Ascii.eqb c "-"%char then option_map Z.opp (digits 0 false r)
      else if Ascii.eqb c "+"%char then digits 0 false r
      else digits 0 false (c :: r)
  | [] => None
  end.

(** ** The class [Objects] *)

(** The compiled objects, as the dictionaries the methods build. *)
Definition Path (paths : list value) : value :=
  VDict [("$OBJECT", VStr (txt "path")); ("paths", VList paths)].

Definition Mutation (name : value) (arguments : list value) : value :=
  VDict [("$OBJECT", VStr (txt "mutation")); ("mutation", name);
         ("arguments", VList arguments)].

Definition PlainString (s : text) : value :=
  VDict [("$OBJECT", VStr (txt "string")); ("string", VStr s)].

Definition TemplateString (s : text) (values : list value) : value :=
  VDict [("$OBJECT", VStr (txt "string")); ("string", VStr s);
         ("values", VList values)].

Definition ListLiteral (items : list value) : value :=
  VDict [("$OBJECT", VStr (txt "list")); ("items", VList items)].

Definition DictLiteral (items : list value) : value :=
  VDict [("$OBJECT", VStr (txt "dict")); ("items", VList items)].

Definition TypeLiteral (name : value) : value :=
  VDict [("$OBJECT", VStr (txt "type")); ("type", name)].

Definition Argument (name v : value) : value :=
  VDict [("$OBJECT", VStr (txt "argument")); ("name", name); ("argument", v)].

Definition Expression (template : text) (values : list value) : value :=
  VDict [("$OBJECT", VStr (txt "expression")); ("expression", VStr template);
         ("values", VList values)].

(** A loop that appends the result of [f] for every element. *)
Fixpoint for_each {A B : Type} (f : A -> res B) (l : list A) : res (list B) :=
  match l with
  | [] => Ok []
  | a :: l' => b <- f a ;; bs <- for_each f l' ;; Ok (b :: bs)
  end.

Module Objects.

(** [names]: the first child gives the base name, every later child is a
    fragment whose first child gives the next name.  The mutual call to
    [path] on a nested path is the recursive call wrapped by [Path]. *)
Fixpoint names (tree : node) : res (list value) :=
  match tree with
  | Token _ _ => Raise AttributeError
  | Tree _ [] => Raise AttributeError
  | Tree _ (first :: fragments) =>
      name <- attr_value (Some first) ;;
      rest <- (fix each (fs : list node) : res (list value) :=
                 match fs with
                 | [] => Ok []
                 | fragment :: fs' =>
                     v <- match fragment with
                          | Token _ _ => Raise AttributeError
                          | Tree _ [] => Raise AttributeError
                          | Tree _ (Token _ v :: _) => Ok (VStr v)
                          | Tree _ ((Tree d ccs as child) :: _) =>
                              if String.eqb d "string" then
                                a <- attr_value (hd_error ccs) ;;
                                s <- strip_quotes a ;;
                                Ok (VStr s)
                              else if String.eqb d "path" then
                                ns <- names child ;;
                                Ok (Path ns)
                              else
                                a <- attr_value (Some child) ;;
                                Ok (to_value a)
                          end ;;
                     vs <- each fs' ;;
                     Ok (v :: vs)
                 end) fragments ;;
      Ok (to_value name :: rest)
  end.

Definition path (tree : node) : res value :=
  ns <- names tree ;; Ok (Path ns).

Definition number (tree : node) : res value :=
  c <- child 0 (Some tree) ;;
  a <- attr_value c ;;
  match a with
  | AStr s =>
      match py_int s with
      | Some z => Ok (VInt z)
      | None => Raise ValueError
      end
  | AObj _ => Raise TypeError
  end.

(** [replace_placeholders]: one [str.replace] per match, in order, each on
    the result of the previous one. *)
Fixpoint replace_placeholders (s : text) (matches : list text) : text :=
  match matches with
  | [] => s
  | m :: matches' =>
      let placeholder := open_brace :: m ++ [close_brace] in
      replace_placeholders (py_replace placeholder (txt "{}") s) matches'
  end.

Definition placeholders_values (matches : list text) : res (list value) :=
  for_each (fun m => path (Tree "path" [Token "WORD" m])) matches.

Definition string (tree : node) : res value :=
  c <- child 0 (Some tree) ;;
  a <- attr_value c ;;
  s <- strip_quotes a ;;
  let matches := findall s in
  match matches with
  | [] => Ok (PlainString s)
  | _ :: _ =>
      values <- placeholders_values matches ;;
      Ok (TemplateString (replace_placeholders s matches) values)
  end.

(** A tree or [None] read through [.value] is never equal to ['true']. *)
Definition boolean (tree : node) : res value :=
  c <- child 0 (Some tree) ;;
  a <- attr_value c ;;
  match a with
  | AStr s => Ok (VBool (text_eqb s (txt "true")))
  | AObj _ => Ok (VBool false)
  end.

Definition types (tree : node) : res value :=
  c <- child 0 (Some tree) ;;
  a <- attr_value c ;;
  Ok (TypeLiteral (to_value a)).

(** [values], [list] and [objects] call each other.  In [values], a
    subtree that is a tree of none of the six kinds falls through to the
    test [subtree.type == 'NAME']: on a tree, [type] is a slot, which is a
    tree or [None] and never equal to a string, so the method ends without
    a [return].  In [objects], [key] keeps the value of the previous entry
    when the kind of the key is neither [string] nor [path], and is unbound
    when there is no previous entry. *)
Fixpoint values (tree : node) : res value :=
  match tree with
  | Token _ _ => Raise AttributeError
  | Tree _ [] => Raise AttributeError
  | Tree _ (Token ty _ :: _) =>
      if String.eqb ty "NAME" then path tree else Ok VNone
  | Tree _ ((Tree d _ as subtree) :: _) =>
      if String.eqb d "string" then string subtree
      else if String.eqb d "boolean" then boolean subtree
      else if String.eqb d "list" then list subtree
      else if String.eqb d "number" then number subtree
      else if String.eqb d "objects" then objects subtree
      else if String.eqb d "types" then types subtree
      else Ok VNone
  end
with list (tree : node) : res value :=
  match tree with
  | Token _ _ => Raise AttributeError
  | Tree _ cs =>
      items <- (fix each (vs : Datatypes.list node) : res (Datatypes.list value) :=
                  match vs with
                  | [] => Ok []
                  | v :: vs' =>
                      x <- values v ;; xs <- each vs' ;; Ok (x :: xs)
                  end) cs ;;
      Ok (ListLiteral items)
  end
with objects (tree : node) : res value :=
  match tree with
  | Token _ _ => Raise AttributeError
  | Tree _ cs =>
      items <- (fix each (key : option value) (its : Datatypes.list node)
                  : res (Datatypes.list value) :=
                  match its with
                  | [] => Ok []
                  | Token _ _ :: _ => Raise AttributeError
                  | Tree _ ics :: its' =>
                      d <- attr_data (hd_error ics) ;;
                      key' <- (if String.eqb d "string"
                               then k <- on string (hd_error ics) ;; Ok (Some k)
                               else if String.eqb d "path"
                               then k <- on path (hd_error ics) ;; Ok (Some k)
                               else Ok key) ;;
                      v <- match ics with
                           | _ :: v :: _ => values v
                           | _ => Raise AttributeError
                           end ;;
                      match key' with
                      | None => Raise UnboundLocalError
                      | Some k =>
                          rest <- each key' its' ;;
                          Ok (VList [k; v] :: rest)
                      end
                  end) None cs ;;
      Ok (DictLiteral items)
  end.

Definition argument (tree : node) : res value :=
  c0 <- child 0 (Some tree) ;;
  name <- attr_value c0 ;;
  c1 <- child 1 (Some tree) ;;
  v <- on values c1 ;;
  Ok (Argument (to_value name) v).

(** The tree [Tree('anon', [subtree.child(1)])] holds [None] when there is
    no second child, and [values] then fails on [None.type]. *)
Definition typed_argument (tree : node) : res value :=
  subtree <- slot "typed_argument" (Some tree) ;;
  c0 <- child 0 subtree ;;
  name <- attr_value c0 ;;
  c1 <- child 1 subtree ;;
  v <- match c1 with
       | Some x => values (Tree "anon" [x])
       | None => Raise AttributeError
       end ;;
  Ok (Argument (to_value name) v).

Definition fill_expression (left_handside operator right_handside : text) : text :=
  left_handside ++ txt " " ++ operator ++ txt " " ++ right_handside.

Section Lark.

(** Two methods of the library lark are taken as they are: [find_data],
    the subtrees of a given kind in the order lark yields them, and the way
    a tree is printed when it is formatted into a string. *)
Variable find_data : String.string -> node -> Datatypes.list node.
Variable tree_repr : node -> text.

(** [str.format] of what stands for an operator. *)
Definition format_obj (o : option node) : text :=
  match o with
  | None => txt "None"
  | Some (Token _ v) => v
  | Some (Tree d cs) => tree_repr (Tree d cs)
  end.

Definition format_attr (a : attr) : text :=
  match a with
  | AStr s => s
  | AObj o => format_obj o
  end.

Definition arguments (tree : node) : res (Datatypes.list value) :=
  match tree with
  | Token _ _ => Raise AttributeError
  | Tree _ _ => for_each argument (find_data "arguments" tree)
  end.

Definition function_arguments (tree : node) : res (Datatypes.list value) :=
  match tree with
  | Token _ _ => Raise AttributeError
  | Tree _ _ => for_each typed_argument (find_data "function_argument" tree)
  end.

(** A tree is always true in a condition, [None] is false. *)
Definition mutation (tree : node) : res value :=
  c0 <- child 0 (Some tree) ;;
  name <- attr_value c0 ;;
  a <- slot "arguments" (Some tree) ;;
  args <- match a with
          | Some t => arguments t
          | None => Ok []
          end ;;
  c <- slot "command" (Some tree) ;;
  name' <- match c with
           | Some t => k <- child 0 (Some t) ;; attr_value k
           | None => Ok name
           end ;;
  Ok (Mutation (to_value name') args).

Definition expression (tree : node) : res value :=
  vs <- slot "values" (Some tree) ;;
  match vs with
  | Some lhs =>
      op <- slot "operator" (Some tree) ;;
      k <- child 0 op ;;
      operator <- attr_value k ;;
      let template :=
        fill_expression (txt "{}") (format_attr operator) (txt "{}") in
      l <- values lhs ;;
      c2 <- child 2 (Some tree) ;;
      r <- on values c2 ;;
      Ok (Expression template [l; r])
  | None =>
      pv <- slot "path_value" (Some tree) ;;
      l0 <- child 0 pv ;;
      left_handside <- on values l0 ;;
      comparison <- child 1 (Some tree) ;;
      match comparison with
      | None => Ok (VList [left_handside])
      | Some _ =>
          c2 <- child 2 (Some tree) ;;
          r0 <- child 0 c2 ;;
          right_handside <- on values r0 ;;
          k <- child 0 comparison ;;
          let template :=
            fill_expression (txt "{}") (format_obj k) (txt "{}") in
          Ok (VList [Expression template [left_handside; right_handside]])
      end
  end.

End Lark.

End Objects.

(** ** What the specification says of a template *)

(** A placeholder as it stands in the text. *)
Definition braces (m : text) : text := open_brace :: m ++ [close_brace].

(** The text with every placeholder occurrence replaced by what [f] gives
    for its inner text: the occurrences are those [findall] finds, each
    replaced where it stands. *)
Fixpoint substitute_from (f : text -> text) (skip : nat) (s : text) : text :=
  match s with
  | [] => []
  | c :: s' =>
      match skip with
      | S k => substitute_from f k s'
      | O =>
          match match_here s with
          | Some m => f m ++ substitute_from f (S (List.length m)) s'
          | None => c :: substitute_from f 0 s'
          end
      end
  end.

Definition substitute (f : text -> text) (s : text) : text :=
  substitute_from f 0 s.

(** The text with every placeholder occurrence replaced by the empty
    marker. *)
Definition blank_placeholders (s : text) : text :=
  substitute (fun _ => txt "{}") s.

(** Filling the markers of a template from left to right, one substitution
    per marker; [None] when the markers and the substitutions do not run
    out together. *)
Fixpoint fill (template : text) (subs : list text) : option text :=
  match template with
  | [] =>
      match subs with
      | [] => Some []
      | _ :: _ => None
      end
  | c :: t' =>
      match t' with
      | c' :: t'' =>
          if Ascii.eqb c open_brace && Ascii.eqb c' close_brace then
            match subs with
            | [] => None
            | x :: subs' => option_map (app x) (fill t'' subs')
            end
          else option_map (cons c) (fill t' subs)
      | [] => option_map (cons c) (fill t' subs)
      end
  end.

(** The substitution of a placeholder: a path of one segment. *)
Definition single_path (m : text) : value := Path [VStr m].

(** ** The vocabulary of the properties *)

(** The double quote, for the literals of the examples. *)
Definition dquote : ascii := ascii_of_nat 34.

(** How one fragment of a path gives one segment. *)
Inductive segment : node -> value -> Prop :=
| segment_name fd ty s rest :
    segment (Tree fd (Token ty s :: rest)) (VStr s)
| segment_string fd ty q inner rest :
    segment (Tree fd (Tree "string" (Token ty q :: inner) :: rest))
            (VStr (slice_1_m1 q))
| segment_path fd pcs p rest :
    Objects.path (Tree "path" pcs) = Ok p ->
    segment (Tree fd (Tree "path" pcs :: rest)) p.

(** [a.b.c] and [a["b"]]. *)
Definition path_a_b_c : node :=
  Tree "path" [Token "NAME" (txt "a");
               Tree "path_fragment" [Token "NAME" (txt "b")];
               Tree "path_fragment" [Token "NAME" (txt "c")]].

Definition path_a_index_b : node :=
  Tree "path" [Token "NAME" (txt "a");
               Tree "path_fragment"
                 [Tree "string" [Token "DOUBLE_QUOTED" (dquote :: txt "b" ++ [dquote])]]].

(** The inner children for which [values] has no case. *)
Definition unhandled (subtree : node) : Prop :=
  match subtree with
  | Token ty _ => ty <> "NAME"
  | Tree d _ =>
      d <> "string" /\ d <> "boolean" /\ d <> "list" /\ d <> "number"
      /\ d <> "objects" /\ d <> "types"
  end.

(** How one entry of a dictionary gives one pair: the key is a string
    tree compiled by [string] or a path tree resolved by [path], the value
    is the second child compiled by [values]. *)
Inductive entry : node -> value -> Prop :=
| entry_string d kcs v rest key val :
    Objects.string (Tree "string" kcs) = Ok key ->
    Objects.values v = Ok val ->
    entry (Tree d (Tree "string" kcs :: v :: rest)) (VList [key; val])
| entry_path d kcs v rest key val :
    Objects.path (Tree "path" kcs) = Ok key ->
    Objects.values v = Ok val ->
    entry (Tree d (Tree "path" kcs :: v :: rest)) (VList [key; val]).

(** Trees of the examples: a number as a value, the token of a quoted key,
    a typed argument [n:int]. *)
Definition number_node (s : string) : node :=
  Tree "values" [Tree "number" [Token "INT" (txt s)]].

Definition string_key (s : string) : list node :=
  [Token "SINGLE_QUOTED" (txt s)].

Definition typed_int : node :=
  Tree "function_argument"
    [Tree "typed_argument"
       [Token "NAME" (txt "n"); Tree "types" [Token "INT_TYPE" (txt "int")]]].

(** A traversal that lists a tree before its subtrees, used where an
    example needs [find_data]; the examples have one matching subtree, so
    that the order of the traversal does not matter. *)
Fixpoint subtrees_of_kind (kind : string) (tree : node) : list node :=
  match tree with
  | Token _ _ => []
  | Tree d cs =>
      (if String.eqb d kind then [tree] else [])
      ++ flat_map (subtrees_of_kind kind) cs
  end.

(** [obj.run(a: 1)], and the same call with a command [go]. *)
Definition argument_a_1 : node :=
  Tree "arguments" [Token "NAME" (txt "a"); number_node "1"].

Definition run_mutation : list node :=
  [Token "NAME" (txt "run"); argument_a_1].

Definition run_mutation_go : list node :=
  [Token "NAME" (txt "run"); Tree "command" [Token "WORD" (txt "go")];
   argument_a_1].

(** [x > 3], the bare [x], and [1 + 2]. *)
Definition path_x : node := Tree "path" [Token "NAME" (txt "x")].

Definition x_greater_3 : list node :=
  [Tree "path_value" [path_x];
   Tree "comparisons" [Token "GREATER" (txt ">")];
   Tree "path_value" [number_node "3"]].

Definition one_plus_two : list node :=
  [number_node "1"; Tree "operator" [Token "PLUS" (txt "+")]; number_node "2"].

(** The object [v] carries [kind] in its discriminator field. *)
Definition tagged (kind : string) (v : value) : Prop :=
  discriminator v = Some (VStr (txt kind)).

(** What [values] can return. *)
Definition compiled_value (v : value) : Prop :=
  v = VNone \/ (exists b, v = VBool b) \/ (exists z, v = VInt z)
  \/ tagged "string" v \/ tagged "list" v \/ tagged "dict" v
  \/ tagged "type" v \/ tagged "path" v.

(** A text cut into pieces: each piece is a literal followed by a
    placeholder, given by its inner text, and a tail follows the last
    piece.  [render f] writes [f m] for the placeholder [m]: [render braces]
    is the text itself. *)
Fixpoint render (f : text -> text) (segs : list (text * text)) (tail : text) : text :=
  match segs with
  | [] => tail
  | (l, m) :: segs' => l ++ f m ++ render f segs' tail
  end.

(** A tail in which no placeholder starts: no closing brace follows an
    opening one. *)
Definition dead (t : text) : Prop :=
  forall a b, t = a ++ open_brace :: b -> ~ In close_brace b.

(** An inner text without braces, and a piece whose literal and inner
    text hold no opening brace. *)
Definition flat (m : text) : Prop := ~ In open_brace m /\ ~ In close_brace m.

Definition plain_seg (lm : text * text) : Prop :=
  ~ In open_brace (fst lm) /\ flat (snd lm).

(** What one replacement, and what a run of replacements, does to the
    inner text of a piece: it is emptied once it equals the match. *)
Definition blank (p : text) (lm : text * text) : text * text :=
  (fst lm, if text_eqb (snd lm) p then [] else snd lm).

Fixpoint blanked (ps : list text) (m : text) : text :=
  match ps with
  | [] => m
  | p :: ps' => blanked ps' (if text_eqb m p then [] else m)
  end.

(** A piece as the scan of [findall] cuts it. *)
Definition cut_seg (lm : text * text) : Prop :=
  ~ In open_brace (fst lm) /\ ~ In close_brace (snd lm).

(** * Properties *)

(** ** Text *)

Lemma text_eqb_eq (a b : text) : text_eqb a b = true <-> a = b.
Proof.
  unfold text_eqb. destruct (list_eq_dec ascii_dec a b); split; congruence.
Qed.

Lemma text_eqb_refl (a : text) : text_eqb a a = true.
Proof. now apply text_eqb_eq. Qed.

Lemma text_eqb_neq (a b : text) : a <> b -> text_eqb a b = false.
Proof.
  intro H. destruct (text_eqb a b) eqn:E; [|reflexivity].
  now apply text_eqb_eq in E.
Qed.

(** ** Results *)

Lemma bind_Ok {A B : Type} (r : res A) (k : A -> res B) (b : B) :
  bind r k = Ok b -> exists a, r = Ok a /\ k a = Ok b.
Proof.
  destruct r as [a|e]; simpl; intro H; [now exists a | discriminate].
Qed.

Ltac bind_inv H :=
  let a := fresh "a" in
  let Ha := fresh "Ha" in
  apply bind_Ok in H; destruct H as (a & Ha & H).

Lemma for_each_Forall2 {A B : Type} (f : A -> res B) (l : list A) (bs : list B) :
  Forall2 (fun a b => f a = Ok b) l bs -> for_each f l = Ok bs.
Proof.
  induction 1 as [|a b l bs Hab _ IH]; simpl; [reflexivity|].
  now rewrite Hab, IH.
Qed.

(** ** Paths *)

Lemma names_cons (d : string) (first : node) (fragments : list node)
      (segs : list value) :
  Forall2 segment fragments segs ->
  forall a, attr_value (Some first) = Ok a ->
  Objects.names (Tree d (first :: fragments)) = Ok (to_value a :: segs).
Proof.
  intros Hs a Ha.
  destruct first as [ty v|fd fcs]; simpl in Ha; inversion Ha; subst; simpl;
    match goal with
    | |- bind (?F fragments) _ = _ => assert (E : F fragments = Ok segs)
    end.
  1,3: induction Hs as [|f v' fs vs Hfv _ IH]; [reflexivity|];
       rewrite IH;
       destruct Hfv as [fd' ty' s rest|fd' ty' q inner rest|fd' pcs p rest Hp];
       [reflexivity|reflexivity|];
       unfold Objects.path in Hp; bind_inv Hp; inversion Hp; subst;
       simpl in Ha0 |- *; rewrite Ha0; reflexivity.
  all: rewrite E; reflexivity.
Qed.

(** C3.  The path of a node whose first child is an identifier token has
    the text of that token as its first segment, and one further segment
    per fragment: the text of an identifier token, the text of a quoted
    string without its quotes, or the resolved nested path. *)
Theorem path_segments (d ty : string) (base : text) (fragments : list node)
        (segs : list value) :
  Forall2 segment fragments segs ->
  Objects.path (Tree d (Token ty base :: fragments)) = Ok (Path (VStr base :: segs)).
Proof.
  intro Hs. unfold Objects.path.
  rewrite (names_cons d (Token ty base) fragments segs Hs (AStr base) eq_refl).
  reflexivity.
Qed.

Lemma path_segments_witness :
  Objects.path path_a_b_c
  = Ok (Path [VStr (txt "a"); VStr (txt "b"); VStr (txt "c")])
  /\ Objects.path path_a_index_b = Ok (Path [VStr (txt "a"); VStr (txt "b")]).
Proof.
  split.
  - apply (path_segments "path" "NAME" (txt "a")
             [Tree "path_fragment" [Token "NAME" (txt "b")];
              Tree "path_fragment" [Token "NAME" (txt "c")]]
             [VStr (txt "b"); VStr (txt "c")]).
    repeat constructor.
  - apply (path_segments "path" "NAME" (txt "a")
             [Tree "path_fragment"
                [Tree "string" [Token "DOUBLE_QUOTED" (dquote :: txt "b" ++ [dquote])]]]
             [VStr (slice_1_m1 (dquote :: txt "b" ++ [dquote]))]).
    repeat constructor.
Defined.

(** ** Booleans *)

(** C5.  A boolean node compiles to [True] exactly when the text of its
    token is [true]; [false], [True] and every other text give [False]. *)
Theorem boolean_only_true (d ty : string) (v : text) (rest : list node) :
  (v = txt "true" ->
   Objects.boolean (Tree d (Token ty v :: rest)) = Ok (VBool true))
  /\ (v <> txt "true" ->
      Objects.boolean (Tree d (Token ty v :: rest)) = Ok (VBool false))
  /\ Objects.boolean (Tree d (Token ty (txt "false") :: rest)) = Ok (VBool false)
  /\ Objects.boolean (Tree d (Token ty (txt "True") :: rest)) = Ok (VBool false).
Proof.
  repeat split.
  - intros ->. reflexivity.
  - intro H.
    change (Objects.boolean (Tree d (Token ty v :: rest)))
      with (@Ok value (VBool (text_eqb v (txt "true")))).
    now rewrite (text_eqb_neq _ _ H).
Qed.

Lemma boolean_only_true_witness :
  Objects.boolean (Tree "boolean" [Token "TRUE" (txt "true")]) = Ok (VBool true)
  /\ Objects.boolean (Tree "boolean" [Token "FALSE" (txt "yes")]) = Ok (VBool false).
Proof.
  split.
  - apply (proj1 (boolean_only_true "boolean" "TRUE" (txt "true") [])).
    reflexivity.
  - apply (proj1 (proj2 (boolean_only_true "boolean" "FALSE" (txt "yes") []))).
    discriminate.
Defined.

(** ** The value dispatcher *)

(** C9.  When the inner child is a tree of a kind other than string,
    boolean, list, number, objects and types, or a token whose type is not
    NAME, [values] raises nothing and returns [None]. *)
Theorem values_falls_through (d : string) (subtree : node) (rest : list node) :
  unhandled subtree ->
  Objects.values (Tree d (subtree :: rest)) = Ok VNone.
Proof.
  destruct subtree as [ty v|sd scs]; simpl.
  - intro H. apply String.eqb_neq in H. now rewrite H.
  - intros (H1 & H2 & H3 & H4 & H5 & H6).
    apply String.eqb_neq in H1, H2, H3, H4, H5, H6.
    now rewrite H1, H2, H3, H4, H5, H6.
Qed.

Lemma values_falls_through_witness :
  Objects.values (Tree "values" [Tree "expression" [Token "NAME" (txt "x")]])
  = Ok VNone
  /\ Objects.values (Tree "values" [Token "INT" (txt "1")]) = Ok VNone.
Proof.
  split.
  - apply (values_falls_through "values"
             (Tree "expression" [Token "NAME" (txt "x")]) []).
    simpl. repeat split; discriminate.
  - apply (values_falls_through "values" (Token "INT" (txt "1")) []).
    simpl. discriminate.
Defined.

(** ** Strings without placeholders *)

(** C10.  When the text between the quotes has no placeholder, [string]
    returns the discriminator and that text, and no field [values]. *)
Theorem string_without_placeholders (d ty : string) (v : text) (rest : list node) :
  findall (slice_1_m1 v) = [] ->
  Objects.string (Tree d (Token ty v :: rest))
  = Ok (VDict [("$OBJECT", VStr (txt "string")); ("string", VStr (slice_1_m1 v))])
  /\ field "values"
       (VDict [("$OBJECT", VStr (txt "string")); ("string", VStr (slice_1_m1 v))])
     = None.
Proof.
  intro H. split; [|reflexivity].
  unfold Objects.string. simpl. now rewrite H.
Qed.

Lemma string_without_placeholders_witness :
  Objects.string (Tree "string" [Token "SINGLE_QUOTED" (txt "'hello'")])
  = Ok (VDict [("$OBJECT", VStr (txt "string")); ("string", VStr (txt "hello"))]).
Proof.
  apply (string_without_placeholders "string" "SINGLE_QUOTED" (txt "'hello'") []).
  reflexivity.
Defined.

(** ** Lists and dictionaries *)

Lemma list_unfold (d : string) (cs : list node) :
  Objects.list (Tree d cs)
  = (items <- for_each Objects.values cs ;; Ok (ListLiteral items)).
Proof.
  simpl.
  match goal with
  | |- bind (?F cs) _ = _ => assert (E : F cs = for_each Objects.values cs)
  end.
  { induction cs as [|c cs IH]; [reflexivity|].
    rewrite IH. reflexivity. }
  now rewrite E.
Qed.

Lemma objects_entries (d : string) (cs : list node) (pairs : list value) :
  Forall2 entry cs pairs ->
  Objects.objects (Tree d cs) = Ok (DictLiteral pairs).
Proof.
  intro H. simpl.
  match goal with
  | |- bind (?F None cs) _ = _ =>
      assert (E : forall key, F key cs = Ok pairs)
  end.
  { induction H as [|c p cs pairs Hcp _ IH]; intro key0; [reflexivity|].
    destruct Hcp as [d' kcs v rest key val Hk Hv|d' kcs v rest key val Hk Hv].
    - cbn [attr_data hd_error bind String.eqb Ascii.eqb Bool.eqb on].
      rewrite Hk. cbn [bind]. rewrite Hv. cbn [bind]. rewrite IH. reflexivity.
    - cbn [attr_data hd_error bind String.eqb Ascii.eqb Bool.eqb on].
      rewrite Hk. cbn [bind]. rewrite Hv. cbn [bind]. rewrite IH. reflexivity. }
  now rewrite E.
Qed.

(** C6.  A list node with N children compiles to a list object with the N
    compiled children in order; a dict node with M entries compiles to a
    dict object with M pairs in order, one per entry whatever its key, the
    key compiled as a string when it is a string node and as a path when it
    is a path node. *)
Theorem composite_literals_keep_order (d1 d2 : string)
        (cs : list node) (vs : list value)
        (es : list node) (pairs : list value) :
  Forall2 (fun c v => Objects.values c = Ok v) cs vs ->
  Forall2 entry es pairs ->
  (Objects.list (Tree d1 cs) = Ok (ListLiteral vs)
   /\ List.length vs = List.length cs)
  /\ (Objects.objects (Tree d2 es) = Ok (DictLiteral pairs)
      /\ List.length pairs = List.length es).
Proof.
  intros Hl Ho. repeat split.
  - rewrite list_unfold, (for_each_Forall2 _ _ _ Hl). reflexivity.
  - symmetry. exact (Forall2_length Hl).
  - now apply objects_entries.
  - symmetry. exact (Forall2_length Ho).
Qed.

Lemma composite_literals_keep_order_witness :
  Objects.list (Tree "list" [number_node "3"; number_node "1"; number_node "3"])
  = Ok (ListLiteral [VInt 3; VInt 1; VInt 3])
  /\ Objects.objects
       (Tree "objects"
          [Tree "key_value" [Tree "string" (string_key "'k'"); number_node "1"];
           Tree "key_value" [Tree "path" [Token "NAME" (txt "p")]; number_node "2"];
           Tree "key_value" [Tree "string" (string_key "'k'"); number_node "3"]])
     = Ok (DictLiteral
             [VList [PlainString (txt "k"); VInt 1];
              VList [Path [VStr (txt "p")]; VInt 2];
              VList [PlainString (txt "k"); VInt 3]]).
Proof.
  pose proof (composite_literals_keep_order "list" "objects"
    [number_node "3"; number_node "1"; number_node "3"]
    [VInt 3; VInt 1; VInt 3]
    [Tree "key_value" [Tree "string" (string_key "'k'"); number_node "1"];
     Tree "key_value" [Tree "path" [Token "NAME" (txt "p")]; number_node "2"];
     Tree "key_value" [Tree "string" (string_key "'k'"); number_node "3"]]
    [VList [PlainString (txt "k"); VInt 1];
     VList [Path [VStr (txt "p")]; VInt 2];
     VList [PlainString (txt "k"); VInt 3]]) as H.
  split; apply H; repeat constructor.
Defined.

(** ** Arguments *)

(** [values] reads the children of its argument and never its kind. *)
Lemma values_any_container (k1 k2 : string) (cs : list node) :
  Objects.values (Tree k1 cs) = Objects.values (Tree k2 cs).
Proof.
  destruct cs as [|[ty v|d scs] rest]; reflexivity.
Qed.

(** C8.  A typed argument compiles to an argument object whose name is the
    text of the first child of the [typed_argument] subnode and whose value
    is [values] applied to a one-child container around the second child;
    it is the object that [argument] returns for the same name and the same
    child inside a container of any kind. *)
Theorem typed_argument_agrees (d sd ty : string) (cs : list node)
        (name : text) (x : node) (rest : list node) :
  walk "typed_argument" cs = Some (Tree sd (Token ty name :: x :: rest)) ->
  Objects.typed_argument (Tree d cs)
  = (v <- Objects.values (Tree "anon" [x]) ;; Ok (Argument (VStr name) v))
  /\ forall (d' ty' k : string) (more : list node),
      Objects.typed_argument (Tree d cs)
      = Objects.argument (Tree d' (Token ty' name :: Tree k [x] :: more)).
Proof.
  intro H.
  assert (E : Objects.typed_argument (Tree d cs)
              = (v <- Objects.values (Tree "anon" [x]) ;;
                 Ok (Argument (VStr name) v))).
  { unfold Objects.typed_argument, slot. cbn [bind]. rewrite H. reflexivity. }
  split; [exact E|].
  intros d' ty' k more. rewrite E.
  unfold Objects.argument. cbn [child bind nth_error attr_value on to_value].
  now rewrite (values_any_container k "anon" [x]).
Qed.

Lemma typed_argument_agrees_witness :
  Objects.typed_argument typed_int
  = Ok (Argument (VStr (txt "n")) (TypeLiteral (VStr (txt "int"))))
  /\ Objects.typed_argument typed_int
     = Objects.argument
         (Tree "arguments"
            [Token "NAME" (txt "n");
             Tree "values" [Tree "types" [Token "INT_TYPE" (txt "int")]]]).
Proof.
  pose proof (typed_argument_agrees "function_argument" "typed_argument" "NAME"
    [Tree "typed_argument"
       [Token "NAME" (txt "n"); Tree "types" [Token "INT_TYPE" (txt "int")]]]
    (txt "n") (Tree "types" [Token "INT_TYPE" (txt "int")]) [] eq_refl) as [H1 H2].
  unfold typed_int. split.
  - rewrite H1. reflexivity.
  - apply (H2 "arguments" "NAME" "values" []).
Defined.

(** ** Mutations *)

Section Mutations.

Variable find_data : string -> node -> list node.

(** C4.  The name of a mutation is the text of the first child, or the
    text of the first child of the command slot when the node has one; its
    arguments are [arguments] applied to the arguments slot when the node
    has one, and the empty list otherwise. *)
Theorem mutation_name_and_arguments (d ty : string) (fragment : text)
        (rest : list node) (name : text) (args : list value) :
  (walk "command" (Token ty fragment :: rest) = None /\ name = fragment
   \/ exists cd cty crest,
       walk "command" (Token ty fragment :: rest)
       = Some (Tree cd (Token cty name :: crest))) ->
  (walk "arguments" (Token ty fragment :: rest) = None /\ args = []
   \/ exists a,
       walk "arguments" (Token ty fragment :: rest) = Some a
       /\ Objects.arguments find_data a = Ok args) ->
  Objects.mutation find_data (Tree d (Token ty fragment :: rest))
  = Ok (Mutation (VStr name) args).
Proof.
  intros Hc Ha.
  unfold Objects.mutation, slot.
  cbn [child bind nth_error attr_value].
  destruct Ha as [[Ha ->]|(a & Ha & Hargs)]; rewrite Ha; cbn [bind].
  - destruct Hc as [[Hc ->]|(cd & cty & crest & Hc)]; rewrite Hc; reflexivity.
  - rewrite Hargs. cbn [bind].
    destruct Hc as [[Hc ->]|(cd & cty & crest & Hc)]; rewrite Hc; reflexivity.
Qed.

End Mutations.

Lemma mutation_name_and_arguments_witness :
  Objects.mutation subtrees_of_kind (Tree "mutation" run_mutation)
  = Ok (Mutation (VStr (txt "run")) [Argument (VStr (txt "a")) (VInt 1)])
  /\ Objects.mutation subtrees_of_kind (Tree "mutation" run_mutation_go)
     = Ok (Mutation (VStr (txt "go")) [Argument (VStr (txt "a")) (VInt 1)]).
Proof.
  split.
  - apply (mutation_name_and_arguments subtrees_of_kind "mutation" "NAME"
             (txt "run") [argument_a_1] (txt "run")).
    + left. split; reflexivity.
    + right. exists argument_a_1. split; reflexivity.
  - apply (mutation_name_and_arguments subtrees_of_kind "mutation" "NAME"
             (txt "run") [Tree "command" [Token "WORD" (txt "go")]; argument_a_1]
             (txt "go")).
    + right. exists "command", "WORD", []. reflexivity.
    + right. exists argument_a_1. split; reflexivity.
Defined.

(** ** Expressions *)

Section Expressions.

Variable tree_repr : node -> text.

(** C2.  With a values slot and an operator slot, [expression] returns one
    expression object, outside any list, whose template has the operator
    between two markers and whose operands are the compiled values slot and
    the compiled third child.  With a path_value slot and no second child,
    it returns a list holding the compiled left value alone.  With a
    path_value slot and a comparison as second child, it returns a list
    holding one expression object built from the comparison operator and
    the two compiled operands. *)
Theorem expression_shapes (d : string) (cs : list node) (l : value) :
  (forall lhs od oty op orest rhs r,
      walk "values" cs = Some lhs ->
      walk "operator" cs = Some (Tree od (Token oty op :: orest)) ->
      nth_error cs 2 = Some rhs ->
      Objects.values lhs = Ok l ->
      Objects.values rhs = Ok r ->
      Objects.expression tree_repr (Tree d cs)
      = Ok (Expression (txt "{} " ++ op ++ txt " {}") [l; r]))
  /\ (forall pd inner prest,
         walk "values" cs = None ->
         walk "path_value" cs = Some (Tree pd (inner :: prest)) ->
         Objects.values inner = Ok l ->
         nth_error cs 1 = None ->
         Objects.expression tree_repr (Tree d cs) = Ok (VList [l]))
  /\ (forall pd inner prest cd cty op crest rd rinner rrest r,
         walk "values" cs = None ->
         walk "path_value" cs = Some (Tree pd (inner :: prest)) ->
         Objects.values inner = Ok l ->
         nth_error cs 1 = Some (Tree cd (Token cty op :: crest)) ->
         nth_error cs 2 = Some (Tree rd (rinner :: rrest)) ->
         Objects.values rinner = Ok r ->
         Objects.expression tree_repr (Tree d cs)
         = Ok (VList [Expression (txt "{} " ++ op ++ txt " {}") [l; r]])).
Proof.
  repeat split.
  - intros lhs od oty op orest rhs r Hv Ho H2 Hl Hr.
    unfold Objects.expression, slot, child. cbn [bind].
    set (c2 := nth_error cs 2) in *.
    rewrite Hv, Ho. cbn [bind nth_error attr_value]. rewrite Hl, H2.
    cbn [bind on]. rewrite Hr. reflexivity.
  - intros pd inner prest Hv Hp Hl H1.
    unfold Objects.expression, slot, child. cbn [bind].
    set (c1 := nth_error cs 1) in *.
    rewrite Hv, Hp. cbn [bind nth_error on]. rewrite Hl. cbn [bind].
    rewrite H1. reflexivity.
  - intros pd inner prest cd cty op crest rd rinner rrest r Hv Hp Hl H1 H2 Hr.
    unfold Objects.expression, slot, child. cbn [bind].
    set (c1 := nth_error cs 1) in *. set (c2 := nth_error cs 2) in *.
    rewrite Hv, Hp. cbn [bind nth_error on]. rewrite Hl. cbn [bind].
    rewrite H1, H2. cbn [bind nth_error on]. rewrite Hr. reflexivity.
Qed.

End Expressions.

Lemma expression_shapes_witness :
  Objects.expression (fun _ => []) (Tree "if_statement" x_greater_3)
  = Ok (VList [Expression (txt "{} > {}") [Path [VStr (txt "x")]; VInt 3]])
  /\ Objects.expression (fun _ => []) (Tree "if_statement" [Tree "path_value" [path_x]])
     = Ok (VList [Path [VStr (txt "x")]])
  /\ Objects.expression (fun _ => []) (Tree "expression" one_plus_two)
     = Ok (Expression (txt "{} + {}") [VInt 1; VInt 2]).
Proof.
  split; [|split].
  - apply (proj2 (proj2 (expression_shapes (fun _ => []) "if_statement"
             x_greater_3 (Path [VStr (txt "x")])))
             "path_value" path_x [] "comparisons" "GREATER" (txt ">") []
             "path_value" (number_node "3") [] (VInt 3)); reflexivity.
  - apply (proj1 (proj2 (expression_shapes (fun _ => []) "if_statement"
             [Tree "path_value" [path_x]] (Path [VStr (txt "x")])))
             "path_value" path_x []); reflexivity.
  - apply (proj1 (expression_shapes (fun _ => []) "expression"
             one_plus_two (VInt 1))
             (number_node "1") "operator" "PLUS" (txt "+") []
             (number_node "2") (VInt 2)); reflexivity.
Defined.

(** ** The discriminator *)

Ltac binds H := repeat bind_inv H.

Lemma for_each_Forall {A B : Type} (f : A -> res B) (P : B -> Prop) :
  (forall a b, f a = Ok b -> P b) ->
  forall l bs, for_each f l = Ok bs -> Forall P bs.
Proof.
  intros Hf l. induction l as [|a l IH]; simpl; intros bs H.
  - inversion H. constructor.
  - binds H. inversion H; subst. constructor; eauto.
Qed.

Lemma string_tagged (tree : node) (v : value) :
  Objects.string tree = Ok v -> tagged "string" v.
Proof.
  unfold Objects.string. intro H. binds H.
  destruct (findall a1); [|binds H]; inversion H; reflexivity.
Qed.

Lemma path_tagged (tree : node) (v : value) :
  Objects.path tree = Ok v -> tagged "path" v.
Proof.
  unfold Objects.path. intro H. binds H. inversion H; reflexivity.
Qed.

Lemma list_tagged (tree : node) (v : value) :
  Objects.list tree = Ok v -> tagged "list" v.
Proof.
  destruct tree as [ty s|d cs]; [discriminate|].
  rewrite list_unfold. intro H. binds H. inversion H; reflexivity.
Qed.

Lemma objects_tagged (tree : node) (v : value) :
  Objects.objects tree = Ok v -> tagged "dict" v.
Proof.
  destruct tree as [ty s|d cs]; [discriminate|].
  simpl. intro H. binds H. inversion H; reflexivity.
Qed.

Lemma types_tagged (tree : node) (v : value) :
  Objects.types tree = Ok v -> tagged "type" v.
Proof.
  unfold Objects.types. intro H. binds H. inversion H; reflexivity.
Qed.

Lemma number_bare (tree : node) (v : value) :
  Objects.number tree = Ok v -> exists z, v = VInt z.
Proof.
  unfold Objects.number. intro H. binds H.
  destruct a0 as [s|o]; [|discriminate].
  destruct (py_int s) as [z|]; [|discriminate].
  inversion H. now exists z.
Qed.

Lemma boolean_bare (tree : node) (v : value) :
  Objects.boolean tree = Ok v -> exists b, v = VBool b.
Proof.
  unfold Objects.boolean. intro H. binds H.
  destruct a0 as [s|o]; inversion H; eauto.
Qed.

Lemma argument_tagged (tree : node) (v : value) :
  Objects.argument tree = Ok v -> tagged "argument" v.
Proof.
  unfold Objects.argument. intro H. binds H. inversion H; reflexivity.
Qed.

Lemma typed_argument_tagged (tree : node) (v : value) :
  Objects.typed_argument tree = Ok v -> tagged "argument" v.
Proof.
  unfold Objects.typed_argument. intro H. binds H. inversion H; reflexivity.
Qed.

Lemma values_compiled (tree : node) (v : value) :
  Objects.values tree = Ok v -> compiled_value v.
Proof.
  unfold compiled_value.
  destruct tree as [ty s|d [|[ty s|sd scs] rest]]; try discriminate.
  - cbn [Objects.values]. destruct (String.eqb ty "NAME").
    + intro H. apply path_tagged in H. tauto.
    + intro H. inversion H. tauto.
  - cbn [Objects.values].
    destruct (String.eqb sd "string");
      [intro H; apply string_tagged in H; tauto|].
    destruct (String.eqb sd "boolean");
      [intro H; apply boolean_bare in H; tauto|].
    destruct (String.eqb sd "list");
      [intro H; apply list_tagged in H; tauto|].
    destruct (String.eqb sd "number");
      [intro H; apply number_bare in H; tauto|].
    destruct (String.eqb sd "objects");
      [intro H; apply objects_tagged in H; tauto|].
    destruct (String.eqb sd "types");
      [intro H; apply types_tagged in H; tauto|].
    intro H. inversion H. tauto.
Qed.

Section Discriminator.

Variable find_data : string -> node -> list node.
Variable tree_repr : node -> text.

(** C7.  Every object built by [path], [string], [list], [objects],
    [types], [argument], [typed_argument], [mutation] and [expression]
    carries its kind in the discriminator field; [number] and [boolean]
    return a bare integer and a bare boolean; the number literal 42 compiles
    to the integer 42.  [expression] returns its object bare or in a list of
    one element, or a list of one compiled value. *)
Theorem discriminator_invariant (tree : node) (v : value) :
  (Objects.path tree = Ok v -> tagged "path" v)
  /\ (Objects.string tree = Ok v -> tagged "string" v)
  /\ (Objects.list tree = Ok v -> tagged "list" v)
  /\ (Objects.objects tree = Ok v -> tagged "dict" v)
  /\ (Objects.types tree = Ok v -> tagged "type" v)
  /\ (Objects.argument tree = Ok v -> tagged "argument" v)
  /\ (Objects.typed_argument tree = Ok v -> tagged "argument" v)
  /\ (Objects.mutation find_data tree = Ok v ->
      tagged "mutation" v
      /\ exists args, field "arguments" v = Some (VList args)
                      /\ Forall (tagged "argument") args)
  /\ (Objects.expression tree_repr tree = Ok v ->
      tagged "expression" v
      \/ exists x, v = VList [x] /\ (tagged "expression" x \/ compiled_value x))
  /\ (Objects.values tree = Ok v -> compiled_value v)
  /\ (Objects.number tree = Ok v -> exists z, v = VInt z)
  /\ (Objects.boolean tree = Ok v -> exists b, v = VBool b)
  /\ Objects.number (Tree "number" [Token "INT" (txt "42")]) = Ok (VInt 42).
Proof.
  repeat match goal with |- _ /\ _ => split end.
  - apply path_tagged.
  - apply string_tagged.
  - apply list_tagged.
  - apply objects_tagged.
  - apply types_tagged.
  - apply argument_tagged.
  - apply typed_argument_tagged.
  - unfold Objects.mutation. intro H. binds H.
    inversion H; subst. split; [reflexivity|].
    exists a2. split; [reflexivity|].
    destruct a1 as [t|]; [|inversion Ha2; constructor].
    unfold Objects.arguments in Ha2. destruct t as [ty s|d cs]; [discriminate|].
    exact (for_each_Forall _ _ argument_tagged _ _ Ha2).
  - unfold Objects.expression. intro H. binds H.
    destruct a as [lhs|].
    + binds H. inversion H. left. reflexivity.
    + binds H. destruct a2 as [c|].
      * binds H. inversion H. right. eexists. split; [reflexivity|].
        left. reflexivity.
      * inversion H. right. eexists. split; [reflexivity|]. right.
        match goal with
        | Hv : on Objects.values ?o = Ok _ |- _ =>
            destruct o; [exact (values_compiled _ _ Hv)|discriminate]
        end.
  - apply values_compiled.
  - apply number_bare.
  - apply boolean_bare.
  - reflexivity.
Qed.

End Discriminator.

Lemma discriminator_invariant_witness :
  tagged "mutation" (Mutation (VStr (txt "run")) [Argument (VStr (txt "a")) (VInt 1)])
  /\ exists z, VInt 42 = VInt z.
Proof.
  pose proof (discriminator_invariant subtrees_of_kind (fun _ => [])
                (Tree "mutation" run_mutation)
                (Mutation (VStr (txt "run")) [Argument (VStr (txt "a")) (VInt 1)]))
    as H1.
  pose proof (discriminator_invariant subtrees_of_kind (fun _ => [])
                (Tree "number" [Token "INT" (txt "42")]) (VInt 42)) as H2.
  split.
  - apply H1. reflexivity.
  - apply H2. reflexivity.
Defined.

(** ** Templates *)

(** *** Scanning past an occurrence *)

Lemma replace_from_skip (old new pre rest : text) :
  replace_from old new (List.length pre) (pre ++ rest)
  = replace_from old new 0 rest.
Proof.
  induction pre as [|c pre IH]; simpl; [destruct rest; reflexivity|exact IH].
Qed.

Lemma findall_from_skip (pre rest : text) :
  findall_from (List.length pre) (pre ++ rest) = findall_from 0 rest.
Proof.
  induction pre as [|c pre IH]; simpl; [destruct rest; reflexivity|exact IH].
Qed.

Lemma substitute_from_skip (f : text -> text) (pre rest : text) :
  substitute_from f (List.length pre) (pre ++ rest) = substitute_from f 0 rest.
Proof.
  induction pre as [|c pre IH]; simpl; [destruct rest; reflexivity|exact IH].
Qed.

(** *** Prefixes *)

Lemma starts_with_app (p r : text) : starts_with p (p ++ r) = true.
Proof.
  induction p as [|a p IH]; simpl; [reflexivity|].
  now rewrite Ascii.eqb_refl, IH.
Qed.

Lemma starts_with_inv (p s : text) :
  starts_with p s = true -> exists r, s = p ++ r.
Proof.
  revert s. induction p as [|a p IH]; intros s H.
  - now exists s.
  - destruct s as [|b s]; [discriminate|]. simpl in H.
    apply andb_true_iff in H. destruct H as [Hab Hp].
    apply Ascii.eqb_eq in Hab. subst b.
    destruct (IH s Hp) as [r ->]. now exists r.
Qed.

(** *** The shape of a match *)

Lemma span_inner_spec (s m r : text) :
  span_inner s = (m, r) -> s = m ++ r /\ ~ In close_brace m
  /\ (r = [] \/ exists r', r = close_brace :: r').
Proof.
  revert m r. induction s as [|c s IH]; simpl; intros m r H.
  - inversion H. simpl. tauto.
  - destruct (Ascii.eqb c close_brace) eqn:E.
    + inversion H; subst. apply Ascii.eqb_eq in E. subst c.
      simpl. split; [reflexivity|]. split; [tauto|]. right. eauto.
    + destruct (span_inner s) as [m' r'] eqn:Es. inversion H; subst.
      destruct (IH m' r eq_refl) as (-> & Hm & Hr).
      apply Ascii.eqb_neq in E.
      simpl. split; [reflexivity|]. split; [|exact Hr].
      intros [Hc|Hc]; [congruence|tauto].
Qed.

Lemma span_inner_app (m r : text) :
  ~ In close_brace m -> span_inner (m ++ close_brace :: r) = (m, close_brace :: r).
Proof.
  induction m as [|c m IH]; simpl; intro H.
  - reflexivity.
  - destruct (Ascii.eqb c close_brace) eqn:E.
    + apply Ascii.eqb_eq in E. tauto.
    + rewrite IH; tauto.
Qed.

Lemma match_here_Some (s m : text) :
  match_here s = Some m ->
  ~ In close_brace m /\ exists r, s = braces m ++ r.
Proof.
  destruct s as [|c s]; simpl; [discriminate|].
  destruct (Ascii.eqb c open_brace) eqn:E; [|discriminate].
  apply Ascii.eqb_eq in E. subst c.
  destruct (span_inner s) as [m' r] eqn:Es.
  destruct (span_inner_spec _ _ _ Es) as (-> & Hm & Hr).
  destruct r as [|d r]; [discriminate|]. intro H. inversion H; subst.
  split; [exact Hm|].
  destruct Hr as [Hr|[r' Hr]]; [discriminate|]. inversion Hr; subst.
  exists r'. unfold braces. simpl. now rewrite <- app_assoc.
Qed.

Lemma match_here_None_open (s : text) :
  match_here (open_brace :: s) = None -> ~ In close_brace s.
Proof.
  simpl. destruct (span_inner s) as [m r] eqn:Es.
  destruct (span_inner_spec _ _ _ Es) as (-> & Hm & Hr).
  destruct r as [|d r]; [|discriminate]. intros _.
  now rewrite app_nil_r.
Qed.

(** *** Texts cut into literals and placeholders *)

Lemma render_cons (f : text -> text) (l m : text) (segs : list (text * text))
      (tail : text) :
  render f ((l, m) :: segs) tail = l ++ f m ++ render f segs tail.
Proof. reflexivity. Qed.

Lemma dead_tl (c : ascii) (t : text) : dead (c :: t) -> dead t.
Proof.
  intros H a b E. apply (H (c :: a) b). now rewrite E.
Qed.

Lemma dead_cons (c : ascii) (t : text) :
  c <> open_brace -> dead t -> dead (c :: t).
Proof.
  intros Hc H a b E. destruct a as [|x a]; simpl in E; inversion E; subst.
  - congruence.
  - now apply (H a b).
Qed.

Lemma dead_open (t : text) : ~ In close_brace t -> dead (open_brace :: t).
Proof.
  intros H a b E. destruct a as [|x a]; simpl in E; inversion E; subst.
  - exact H.
  - intro Hb. apply H. apply in_or_app. right. now right.
Qed.

Lemma replace_from_0 (old new : text) (c : ascii) (s : text) :
  replace_from old new 0 (c :: s)
  = if starts_with old (c :: s)
    then new ++ replace_from old new (List.length old - 1) s
    else c :: replace_from old new 0 s.
Proof. reflexivity. Qed.

Lemma starts_with_braces_other (p : text) (c : ascii) (s : text) :
  c <> open_brace -> starts_with (braces p) (c :: s) = false.
Proof.
  intro H.
  change (starts_with (braces p) (c :: s))
    with (Ascii.eqb open_brace c && starts_with (p ++ [close_brace]) s).
  destruct (Ascii.eqb open_brace c) eqn:E; [|reflexivity].
  apply Ascii.eqb_eq in E. congruence.
Qed.

Lemma replace_literal (p new l s : text) :
  ~ In open_brace l ->
  replace_from (braces p) new 0 (l ++ s) = l ++ replace_from (braces p) new 0 s.
Proof.
  induction l as [|c l IH]; intro H; [reflexivity|].
  simpl app. rewrite replace_from_0, starts_with_braces_other.
  - f_equal. apply IH. intro Hin. apply H. now right.
  - intro Hc. apply H. now left.
Qed.

Lemma first_close_unique (c p x y : text) :
  ~ In close_brace c -> ~ In close_brace p ->
  c ++ close_brace :: x = p ++ close_brace :: y -> c = p.
Proof.
  revert p. induction c as [|a c IH]; intros [|b p] Hc Hp E; simpl in *.
  - reflexivity.
  - inversion E; subst. tauto.
  - inversion E; subst. tauto.
  - inversion E; subst. f_equal. apply IH; tauto.
Qed.

Lemma braces_app (m rest : text) :
  braces m ++ rest = open_brace :: m ++ close_brace :: rest.
Proof. unfold braces. simpl. now rewrite <- app_assoc. Qed.

Lemma starts_with_braces (p c rest : text) :
  ~ In close_brace p -> ~ In close_brace c ->
  starts_with (braces p) (braces c ++ rest) = text_eqb c p.
Proof.
  intros Hp Hc. destruct (text_eqb c p) eqn:E.
  - apply text_eqb_eq in E. subst. apply starts_with_app.
  - destruct (starts_with (braces p) (braces c ++ rest)) eqn:S; [|reflexivity].
    apply starts_with_inv in S. destruct S as [r S].
    rewrite !braces_app in S. inversion S as [S'].
    apply first_close_unique in S'; trivial.
    subst. now rewrite text_eqb_refl in E.
Qed.

Lemma braces_length (p : text) : List.length (braces p) - 1 = List.length (p ++ [close_brace]).
Proof. unfold braces. simpl. lia. Qed.

Lemma replace_hole (p new c rest : text) :
  ~ In close_brace p -> flat c ->
  replace_from (braces p) new 0 (braces c ++ rest)
  = (if text_eqb c p then new else braces c)
      ++ replace_from (braces p) new 0 rest.
Proof.
  intros Hp [Hco Hcc].
  pose proof (starts_with_braces p c rest Hp Hcc) as S.
  rewrite braces_app in S |- *. rewrite replace_from_0, S.
  destruct (text_eqb c p) eqn:E.
  - apply text_eqb_eq in E. subst c. f_equal.
    rewrite braces_length.
    change (p ++ close_brace :: rest) with (p ++ [close_brace] ++ rest).
    rewrite app_assoc. apply replace_from_skip.
  - rewrite (braces_app c). apply f_equal.
    rewrite replace_literal by exact Hco. apply f_equal.
    change (close_brace :: rest) with ([close_brace] ++ rest).
    rewrite replace_literal; [reflexivity|].
    intros [H|[]]. discriminate.
Qed.

Lemma replace_dead (p new t : text) :
  dead t -> replace_from (braces p) new 0 t = t.
Proof.
  induction t as [|c t IH]; intro H; [reflexivity|].
  rewrite replace_from_0.
  destruct (starts_with (braces p) (c :: t)) eqn:S.
  - apply starts_with_inv in S. destruct S as [r S]. rewrite braces_app in S.
    exfalso. apply (H [] (p ++ close_brace :: r) S).
    apply in_or_app. right. now left.
  - f_equal. apply IH. now apply dead_tl with c.
Qed.

Lemma replace_render (p : text) (segs : list (text * text)) (tail : text) :
  ~ In close_brace p -> Forall plain_seg segs -> dead tail ->
  py_replace (braces p) (txt "{}") (render braces segs tail)
  = render braces (map (blank p) segs) tail.
Proof.
  intros Hp Hs Ht.
  change (py_replace (braces p) (txt "{}") (render braces segs tail))
    with (replace_from (braces p) (braces []) 0 (render braces segs tail)).
  induction Hs as [|[l c] segs [Hl Hc] _ IH].
  - now apply replace_dead.
  - simpl in Hl, Hc. rewrite render_cons.
    rewrite replace_literal by exact Hl.
    rewrite replace_hole by assumption. rewrite IH.
    cbn [map].
    change (blank p (l, c)) with (l, if text_eqb c p then [] else c).
    rewrite render_cons. now destruct (text_eqb c p).
Qed.

Lemma blank_plain (p : text) (lm : text * text) :
  plain_seg lm -> plain_seg (blank p lm).
Proof.
  intros [Hl Hc]. split; [exact Hl|]. simpl.
  destruct (text_eqb (snd lm) p); [|exact Hc]. split; intros [].
Qed.

Lemma replace_placeholders_render (ps : list text) (segs : list (text * text))
      (tail : text) :
  Forall (fun p => ~ In close_brace p) ps -> Forall plain_seg segs -> dead tail ->
  Objects.replace_placeholders (render braces segs tail) ps
  = render braces (map (fun lm => (fst lm, blanked ps (snd lm))) segs) tail.
Proof.
  intros Hps. revert segs.
  induction Hps as [|p ps Hp _ IH]; intros segs Hs Ht.
  - simpl. f_equal. rewrite <- (map_id segs) at 1. apply map_ext.
    now intros [l m].
  - change (Objects.replace_placeholders (render braces segs tail) (p :: ps))
      with (Objects.replace_placeholders
              (py_replace (braces p) (txt "{}") (render braces segs tail)) ps).
    rewrite replace_render by assumption.
    rewrite IH; trivial.
    + now rewrite map_map.
    + apply Forall_map. revert Hs. apply Forall_impl. intro lm. apply blank_plain.
Qed.

Lemma blanked_nil (ps : list text) : blanked ps [] = [].
Proof.
  induction ps as [|p ps IH]; simpl; [reflexivity|].
  now destruct (text_eqb [] p).
Qed.

Lemma blanked_In (ps : list text) (m : text) : In m ps -> blanked ps m = [].
Proof.
  induction ps as [|p ps IH]; simpl; [tauto|]. intro H.
  destruct (text_eqb m p) eqn:E; [apply blanked_nil|].
  destruct H as [H|H]; [subst; now rewrite text_eqb_refl in E|now apply IH].
Qed.

Lemma render_blanked (g : text -> text) (segs : list (text * text)) (tail : text) :
  (forall lm, In lm segs -> g (snd lm) = []) ->
  render braces (map (fun lm => (fst lm, g (snd lm))) segs) tail
  = render (fun _ => txt "{}") segs tail.
Proof.
  induction segs as [|[l m] segs IH]; intro H; [reflexivity|].
  cbn [map fst snd]. rewrite !render_cons.
  pose proof (H (l, m) (or_introl eq_refl)) as E. simpl in E. rewrite E.
  rewrite IH; [reflexivity|].
  intros lm Hlm. apply H. now right.
Qed.

(** *** Every text is cut into literals, placeholders and a dead tail *)

Lemma skip_placeholder (m : text) :
  S (List.length m) = List.length (m ++ [close_brace]).
Proof. rewrite length_app. simpl. lia. Qed.

Lemma findall_match (m r : text) :
  ~ In close_brace m ->
  findall (braces m ++ r) = m :: findall r.
Proof.
  intro Hm. rewrite braces_app. unfold findall.
  change (findall_from 0 (open_brace :: m ++ close_brace :: r))
    with (match match_here (open_brace :: m ++ close_brace :: r) with
          | Some m' => m' :: findall_from (S (List.length m')) (m ++ close_brace :: r)
          | None => findall_from 0 (m ++ close_brace :: r)
          end).
  assert (E : match_here (open_brace :: m ++ close_brace :: r) = Some m).
  { simpl. now rewrite span_inner_app. }
  rewrite E. f_equal. rewrite (skip_placeholder m).
  change (m ++ close_brace :: r) with (m ++ [close_brace] ++ r).
  rewrite app_assoc. apply findall_from_skip.
Qed.

Lemma substitute_match (f : text -> text) (m r : text) :
  ~ In close_brace m ->
  substitute f (braces m ++ r) = f m ++ substitute f r.
Proof.
  intro Hm. rewrite braces_app. unfold substitute.
  change (substitute_from f 0 (open_brace :: m ++ close_brace :: r))
    with (match match_here (open_brace :: m ++ close_brace :: r) with
          | Some m' => f m' ++ substitute_from f (S (List.length m')) (m ++ close_brace :: r)
          | None => open_brace :: substitute_from f 0 (m ++ close_brace :: r)
          end).
  assert (E : match_here (open_brace :: m ++ close_brace :: r) = Some m).
  { simpl. now rewrite span_inner_app. }
  rewrite E. f_equal. rewrite (skip_placeholder m).
  change (m ++ close_brace :: r) with (m ++ [close_brace] ++ r).
  rewrite app_assoc. apply substitute_from_skip.
Qed.

Lemma findall_no_match (c : ascii) (s : text) :
  match_here (c :: s) = None -> findall (c :: s) = findall s.
Proof.
  intro E. unfold findall.
  change (findall_from 0 (c :: s))
    with (match match_here (c :: s) with
          | Some m' => m' :: findall_from (S (List.length m')) s
          | None => findall_from 0 s
          end).
  now rewrite E.
Qed.

Lemma substitute_no_match (f : text -> text) (c : ascii) (s : text) :
  match_here (c :: s) = None -> substitute f (c :: s) = c :: substitute f s.
Proof.
  intro E. unfold substitute.
  change (substitute_from f 0 (c :: s))
    with (match match_here (c :: s) with
          | Some m' => f m' ++ substitute_from f (S (List.length m')) s
          | None => c :: substitute_from f 0 s
          end).
  now rewrite E.
Qed.

Lemma render_has_close (l m : text) (segs : list (text * text)) (tail : text) :
  In close_brace (render braces ((l, m) :: segs) tail).
Proof.
  rewrite render_cons, braces_app.
  apply in_or_app. right. right. apply in_or_app. right. now left.
Qed.

Lemma cut_exists (n : nat) :
  forall s, List.length s <= n ->
  exists segs tail,
    s = render braces segs tail
    /\ Forall cut_seg segs
    /\ dead tail
    /\ findall s = map snd segs
    /\ forall f, substitute f s = render f segs tail.
Proof.
  induction n as [|n IH]; intros s Hn.
  - destruct s; [|simpl in Hn; lia].
    exists [], []. repeat split; try constructor.
    intros a b E. destruct a; discriminate.
  - destruct s as [|c s].
    { exists [], []. repeat split; try constructor.
      intros a b E. destruct a; discriminate. }
    simpl in Hn. destruct (match_here (c :: s)) as [m|] eqn:E.
    + destruct (match_here_Some _ _ E) as (Hm & r & Hr).
      assert (Hlen : List.length r <= n).
      { apply (f_equal (@List.length ascii)) in Hr.
        rewrite braces_app in Hr. simpl in Hr. rewrite length_app in Hr.
        simpl in Hr. lia. }
      destruct (IH r Hlen) as (segs & tail & E1 & E2 & E3 & E4 & E5).
      exists (([], m) :: segs), tail. rewrite Hr.
      repeat split.
      * rewrite render_cons. simpl. now rewrite <- E1.
      * constructor; [|exact E2]. split; [intros []|exact Hm].
      * exact E3.
      * rewrite findall_match by exact Hm. simpl. now rewrite E4.
      * intro f. rewrite substitute_match by exact Hm.
        rewrite render_cons. simpl. now rewrite E5.
    + assert (Hlen : List.length s <= n) by lia.
      destruct (IH s Hlen) as (segs & tail & E1 & E2 & E3 & E4 & E5).
      destruct segs as [|[l m] segs].
      * simpl in E1. subst tail.
        exists [], (c :: s). repeat split; try constructor.
        -- destruct (ascii_dec c open_brace) as [->|Hc].
           ++ apply dead_open. now apply match_here_None_open.
           ++ now apply dead_cons.
        -- rewrite findall_no_match by exact E. exact E4.
        -- intro f. rewrite substitute_no_match by exact E.
           now rewrite E5.
      * assert (Hc : c <> open_brace).
        { intros ->. apply match_here_None_open in E. apply E.
          rewrite E1. apply render_has_close. }
        exists ((c :: l, m) :: segs), tail. repeat split.
        -- rewrite render_cons. simpl. f_equal.
           now rewrite E1, render_cons.
        -- inversion E2 as [|x y [Hl Hm] Hs]; subst.
           constructor; [|exact Hs]. split; [|exact Hm].
           simpl. intros [H|H]; [congruence|]. now apply Hl.
        -- exact E3.
        -- rewrite findall_no_match by exact E. exact E4.
        -- intro f. rewrite substitute_no_match by exact E.
           rewrite E5, !render_cons. reflexivity.
Qed.

Lemma cut_text (s : text) :
  exists segs tail,
    s = render braces segs tail
    /\ Forall cut_seg segs
    /\ dead tail
    /\ findall s = map snd segs
    /\ forall f, substitute f s = render f segs tail.
Proof. exact (cut_exists (List.length s) s (le_n _)). Qed.

(** *** Filling a template *)

Lemma fill_other (c : ascii) (t : text) (subs : list text) :
  c <> open_brace -> fill (c :: t) subs = option_map (cons c) (fill t subs).
Proof.
  intro H. destruct t as [|c' t]; [reflexivity|].
  change (fill (c :: c' :: t) subs)
    with (if Ascii.eqb c open_brace && Ascii.eqb c' close_brace
          then match subs with
               | [] => None
               | x :: subs' => option_map (app x) (fill t subs')
               end
          else option_map (cons c) (fill (c' :: t) subs)).
  apply Ascii.eqb_neq in H. now rewrite H.
Qed.

Lemma fill_marker (t x : text) (subs : list text) :
  fill (txt "{}" ++ t) (x :: subs) = option_map (app x) (fill t subs).
Proof. reflexivity. Qed.

Lemma fill_literal (l t : text) (subs : list text) :
  ~ In open_brace l ->
  fill (l ++ t) subs = option_map (app l) (fill t subs).
Proof.
  induction l as [|c l IH]; intro H.
  - simpl. now destruct (fill t subs).
  - simpl app. rewrite fill_other by (intro Hc; apply H; now left).
    rewrite IH by (intro Hin; apply H; now right).
    now destruct (fill t subs).
Qed.

Lemma fill_dead (t : text) : dead t -> fill t [] = Some t.
Proof.
  induction t as [|c t IH]; intro H; [reflexivity|].
  destruct t as [|c' t]; [reflexivity|].
  change (fill (c :: c' :: t) [])
    with (if Ascii.eqb c open_brace && Ascii.eqb c' close_brace
          then None
          else option_map (cons c) (fill (c' :: t) [])).
  destruct (Ascii.eqb c open_brace && Ascii.eqb c' close_brace) eqn:E.
  - apply andb_true_iff in E. destruct E as [E1 E2].
    apply Ascii.eqb_eq in E1, E2. subst.
    exfalso. apply (H [] (close_brace :: t) eq_refl). now left.
  - rewrite IH by now apply dead_tl with c. reflexivity.
Qed.

Lemma fill_render (f : text -> text) (segs : list (text * text)) (tail : text) :
  Forall cut_seg segs -> dead tail ->
  fill (render (fun _ => txt "{}") segs tail) (map f (map snd segs))
  = Some (render f segs tail).
Proof.
  intros Hs Ht. induction Hs as [|[l m] segs [Hl _] _ IH].
  - simpl. now apply fill_dead.
  - rewrite !render_cons. cbn [map snd]. simpl in Hl.
    rewrite fill_literal by exact Hl.
    rewrite fill_marker, IH. reflexivity.
Qed.

(** *** The compiled string *)

Lemma placeholders_values_Ok (ms : list text) :
  Objects.placeholders_values ms = Ok (map single_path ms).
Proof.
  unfold Objects.placeholders_values.
  induction ms as [|m ms IH]; [reflexivity|].
  simpl for_each. rewrite IH. reflexivity.
Qed.

Lemma string_compiled (d ty : string) (v : text) (rest : list node) :
  Objects.string (Tree d (Token ty v :: rest))
  = Ok (match findall (slice_1_m1 v) with
        | [] => PlainString (slice_1_m1 v)
        | _ :: _ =>
            TemplateString
              (Objects.replace_placeholders (slice_1_m1 v) (findall (slice_1_m1 v)))
              (map single_path (findall (slice_1_m1 v)))
        end).
Proof.
  unfold Objects.string. cbn [child bind nth_error attr_value strip_quotes].
  destruct (findall (slice_1_m1 v)) as [|m ms]; [reflexivity|].
  now rewrite placeholders_values_Ok.
Qed.

Lemma replace_placeholders_flat (s : text) :
  Forall (fun m => ~ In open_brace m) (findall s) ->
  Objects.replace_placeholders s (findall s) = blank_placeholders s.
Proof.
  intro Hflat.
  destruct (cut_text s) as (segs & tail & E1 & E2 & E3 & E4 & E5).
  unfold blank_placeholders. rewrite E5, E4. rewrite E1 at 1.
  rewrite E4 in Hflat.
  rewrite replace_placeholders_render.
  - apply render_blanked. intros lm Hlm. apply blanked_In. now apply in_map.
  - apply Forall_map. revert E2. apply Forall_impl. now intros lm [_ H].
  - apply Forall_forall. intros lm Hlm. split; [|split].
    + exact (proj1 (proj1 (Forall_forall _ _) E2 lm Hlm)).
    + apply (proj1 (Forall_forall _ _) Hflat). now apply in_map.
    + exact (proj2 (proj1 (Forall_forall _ _) E2 lm Hlm)).
  - exact E3.
Qed.

Lemma fill_blank_placeholders (f : text -> text) (s : text) :
  fill (blank_placeholders s) (map f (findall s)) = Some (substitute f s).
Proof.
  destruct (cut_text s) as (segs & tail & E1 & E2 & E3 & E4 & E5).
  unfold blank_placeholders. rewrite !E5, E4. now apply fill_render.
Qed.

Lemma substitute_braces (s : text) : substitute braces s = s.
Proof.
  destruct (cut_text s) as (segs & tail & E1 & E2 & E3 & E4 & E5).
  now rewrite E5.
Qed.

(** On a string whose placeholders hold no opening brace, [string] does
    what is asked of it: one single-segment path per occurrence, in order
    and with repetitions, and a template in which every occurrence has
    become the empty marker; filling the markers from left to right with
    any texts chosen for the names gives the text with those texts in place
    of the placeholders, and with the placeholders themselves the text as
    it was. *)
Lemma string_template_without_nested_brace (d ty : string) (v : text)
      (rest : list node) :
  findall (slice_1_m1 v) <> [] ->
  Forall (fun m => ~ In open_brace m) (findall (slice_1_m1 v)) ->
  Objects.string (Tree d (Token ty v :: rest))
  = Ok (TemplateString (blank_placeholders (slice_1_m1 v))
          (map single_path (findall (slice_1_m1 v))))
  /\ List.length (map single_path (findall (slice_1_m1 v)))
     = List.length (findall (slice_1_m1 v))
  /\ (forall f,
         fill (blank_placeholders (slice_1_m1 v)) (map f (findall (slice_1_m1 v)))
         = Some (substitute f (slice_1_m1 v)))
  /\ substitute braces (slice_1_m1 v) = slice_1_m1 v.
Proof.
  intros Hne Hflat. repeat split.
  - rewrite string_compiled, (replace_placeholders_flat _ Hflat).
    destruct (findall (slice_1_m1 v)); [congruence|reflexivity].
  - apply length_map.
  - intro f. apply fill_blank_placeholders.
  - apply substitute_braces.
Qed.

Lemma string_template_without_nested_brace_example :
  Objects.string
    (Tree "string" [Token "SINGLE_QUOTED" (txt "'hi {name}, {name} of {town}'")])
  = Ok (TemplateString (txt "hi {}, {} of {}")
          [single_path (txt "name"); single_path (txt "name");
           single_path (txt "town")]).
Proof.
  assert (H1 : findall (slice_1_m1 (txt "'hi {name}, {name} of {town}'")) <> [])
    by (vm_compute; discriminate).
  assert (H2 : Forall (fun m => ~ In open_brace m)
                 (findall (slice_1_m1 (txt "'hi {name}, {name} of {town}'")))).
  { vm_compute. repeat constructor; intro H;
      repeat (destruct H as [H|H]; [discriminate|]); exact H. }
  destruct (string_template_without_nested_brace "string" "SINGLE_QUOTED"
              (txt "'hi {name}, {name} of {town}'") [] H1 H2) as [E _].
  rewrite E. vm_compute. reflexivity.
Defined.

(** C1.  On the string ['{a}{{a}'] the two placeholder occurrences give the
    two single-segment paths [a] and [{a], in order, as specified; but
    the stored template is [{}{{}] where the text with every occurrence
    replaced by the marker is [{}{}], and filling the markers of the stored
    template with the two placeholders does not give the text back.  The
    first replacement also rewrites the end of the second occurrence, which
    the second replacement then no longer finds. *)
Theorem string_template_nested_brace :
  findall (txt "{a}{{a}") = [txt "a"; txt "{a"]
  /\ Objects.string (Tree "string" [Token "SINGLE_QUOTED" (txt "'{a}{{a}'")])
     = Ok (TemplateString (txt "{}{{}")
             [single_path (txt "a"); single_path (txt "{a")])
  /\ blank_placeholders (txt "{a}{{a}") = txt "{}{}"
  /\ Objects.replace_placeholders (txt "{a}{{a}") (findall (txt "{a}{{a}"))
     <> blank_placeholders (txt "{a}{{a}")
  /\ fill (txt "{}{}") (map braces (findall (txt "{a}{{a}"))) = Some (txt "{a}{{a}")
  /\ fill (txt "{}{{}") (map braces (findall (txt "{a}{{a}")))
     = Some (txt "{a}{{{a}").
Proof.
  repeat split; try (vm_compute; reflexivity).
  vm_compute. discriminate.
Qed.
